(** * Hierarchical layout system ([crawl-ref/source/ui.h])

A shallow embedding of the widget base class, the event [Slot], the
vector-backed containers and the grid of [ui.h], with the properties
the layout specification states about them.

Conventions.
- A C++ [int] is a [Z]; arithmetic goes through [Int.add] and [Int.sub],
  which wrap to 32 bits in two's complement.
- [std::vector::operator[]] performs no bounds check; an access outside
  the vector is undefined behaviour and is the explicit [None] (or
  [OutOfRange]) result here.
- Pointers ([Target*], [shared_ptr<UI>]) are addresses, a [Z].
- Methods take the object as [this] and return the updated object. *)

From Stdlib Require Import ZArith List Bool Lia Sorted.
Import ListNotations.
Local Open Scope Z_scope.

Set Implicit Arguments.

(* ================================================================== *)
(** * Definitions *)
(* ================================================================== *)

(** ** Machine integers *)

Module Int.

Definition min_int : Z := - 2 ^ 31.
Definition max_int : Z := 2 ^ 31 - 1.

Definition in_range (z : Z) : Prop := min_int <= z <= max_int.

(** Reduction of a mathematical integer to the 32-bit signed range. *)
Definition wrap (z : Z) : Z := (z + 2 ^ 31) mod 2 ^ 32 - 2 ^ 31.

Definition add (a b : Z) : Z := wrap (a + b).
Definition sub (a b : Z) : Z := wrap (a - b).

(** Sum of a list of [int]s, accumulated left to right as a loop would. *)
Definition sum (l : list Z) : Z := fold_left add l 0.

End Int.

(** The mathematical sum of a list of integers, without wrap-around. *)
Definition Zsum (l : list Z) : Z := fold_right Z.add 0 l.

(** ** Results of operations that may abort or leave their vectors *)

Inductive outcome (A : Type) : Type :=
| Returned (a : A)
| AssertFailed          (* ASSERT(...) failed: the process aborts *)
| OutOfRange.           (* operator[] outside the vector: undefined *)

Arguments Returned {A} a.
Arguments AssertFailed {A}.
Arguments OutOfRange {A}.

(** [v[i]] for a [std::vector] and an [int] index: the index converts to
    [size_t], so a negative one lies beyond every vector. *)
Definition vec_at {A : Type} (v : list A) (i : Z) : option A :=
  if i <? 0 then None else nth_error v (Z.to_nat i).

(** ** Geometry primitives *)

Record i4 : Type := I4 { i4_0 : Z; i4_1 : Z; i4_2 : Z; i4_3 : Z }.

Record i2 : Type := I2 { i2_0 : Z; i2_1 : Z }.

(** [i4::operator[]] on the four-element array [xyzw]. *)
Definition i4_get (v : i4) (index : Z) : option Z :=
  vec_at [i4_0 v; i4_1 v; i4_2 v; i4_3 v] index.

Definition i2_get (v : i2) (index : Z) : option Z :=
  vec_at [i2_0 v; i2_1 v] index.

(** [i4::operator==]. *)
Definition i4_eqb (a b : i4) : bool :=
  (i4_0 a =? i4_0 b) && (i4_1 a =? i4_1 b) &&
  (i4_2 a =? i4_2 b) && (i4_3 a =? i4_3 b).

Definition i2_eqb (a b : i2) : bool :=
  (i2_0 a =? i2_0 b) && (i2_1 a =? i2_1 b).

(** [struct UISizeReq { int min, nat; }]; the fields are prefixed, [nat]
    being the type of natural numbers here. *)
Record UISizeReq : Type := SizeReq { sr_min : Z; sr_nat : Z }.

Inductive UIAlign_type : Type :=
| UI_ALIGN_UNSET
| UI_ALIGN_START
| UI_ALIGN_END
| UI_ALIGN_CENTER
| UI_ALIGN_STRETCH.

Inductive UIJustify_type : Type :=
| UI_JUSTIFY_START
| UI_JUSTIFY_CENTER
| UI_JUSTIFY_END.

(** ** The widget base class [UI] *)

(** The two-element arrays [cached_sr_valid[2]] and [cached_sr[2]] are
    pairs; [arr2_get] is their indexing by an [int]. *)
Definition arr2_get {A : Type} (a : A * A) (i : Z) : option A :=
  vec_at [fst a; snd a] i.

Record UI : Type := mkUI {
  margin : i4;
  flex_grow : Z;
  align_self : UIAlign_type;
  expand_h : bool;
  expand_v : bool;
  m_region : i4;
  cached_sr_valid : bool * bool;
  cached_sr : UISizeReq * UISizeReq;
  cached_sr_pw : Z
}.

(** The members a constructor's initialiser list leaves out start with
    indeterminate values; [indeterminate] collects those of [UI::UI]. *)
Record indeterminate : Type := Indeterminate {
  ind_region : i4;
  ind_cached_sr : UISizeReq * UISizeReq;
  ind_cached_sr_pw : Z
}.

(** [UI::UI()]. *)
Definition new_UI (ind : indeterminate) : UI :=
  {| margin := I4 0 0 0 0;
     flex_grow := 1;
     align_self := UI_ALIGN_UNSET;
     expand_h := false;
     expand_v := false;
     m_region := ind_region ind;
     cached_sr_valid := (false, false);
     cached_sr := ind_cached_sr ind;
     cached_sr_pw := ind_cached_sr_pw ind |}.

Definition set_margin (this : UI) (_margin : i4) : UI :=
  {| margin := _margin;
     flex_grow := flex_grow this;
     align_self := align_self this;
     expand_h := expand_h this;
     expand_v := expand_v this;
     m_region := m_region this;
     cached_sr_valid := cached_sr_valid this;
     cached_sr := cached_sr this;
     cached_sr_pw := cached_sr_pw this |}.

Definition set_expand (this : UI) (h v : bool) : UI :=
  {| margin := margin this;
     flex_grow := flex_grow this;
     align_self := align_self this;
     expand_h := h;
     expand_v := v;
     m_region := m_region this;
     cached_sr_valid := cached_sr_valid this;
     cached_sr := cached_sr this;
     cached_sr_pw := cached_sr_pw this |}.

(** The build configuration: whether the macro [USE_TILE_LOCAL] is defined
    (the SDL tile build) or not (the console build). *)
Definition build_config : Type := bool.

(** [UI::set_margin_for_crt]: the assignment is compiled under
    [#ifndef USE_TILE_LOCAL]. *)
Definition set_margin_for_crt (USE_TILE_LOCAL : build_config)
    (this : UI) (_margin : i4) : UI :=
  if USE_TILE_LOCAL then this else set_margin this _margin.

(** [UI::set_margin_for_sdl]: the assignment is compiled under
    [#ifdef USE_TILE_LOCAL]. *)
Definition set_margin_for_sdl (USE_TILE_LOCAL : build_config)
    (this : UI) (_margin : i4) : UI :=
  if USE_TILE_LOCAL then set_margin this _margin else this.

(** ** Vector-backed containers: [UIContainerVec], [UIBox], [UIStack] *)

(** A [shared_ptr<UI>] is the address of the widget it owns. *)
Definition shared_ptr_UI : Type := Z.

Record UIContainerVec : Type := mkContainerVec {
  vec_base : UI;
  m_children : list shared_ptr_UI
}.

Record UIBox : Type := mkBox {
  box_super : UIContainerVec;
  horz : bool;
  justify_items : UIJustify_type;
  align_items : UIAlign_type
}.

(** [UIBox::UIBox()]: the base sub-object is built by [UI::UI()], the
    vector of children starts empty, the initialiser list sets the three
    members of the box, and the body then assigns
    [expand_h = expand_v = true]. *)
Definition new_UIBox (ind : indeterminate) : UIBox :=
  {| box_super := {| vec_base := set_expand (new_UI ind) true true;
                     m_children := [] |};
     horz := false;
     justify_items := UI_JUSTIFY_START;
     align_items := UI_ALIGN_UNSET |}.

Record UIStack : Type := mkStack { stack_super : UIContainerVec }.

(** The implicit [UIStack] constructor: base constructor, no children. *)
Definition new_UIStack (ind : indeterminate) : UIStack :=
  {| stack_super := {| vec_base := new_UI ind; m_children := [] |} |}.

(** [UIStack::num_children], a [size_t]. *)
Definition num_children (this : UIStack) : N :=
  N.of_nat (length (m_children (stack_super this))).

(** [UIStack::get_child]: [m_children[idx]] with [idx] a [size_t]. *)
Definition get_child (this : UIStack) (idx : N) : option shared_ptr_UI :=
  nth_error (m_children (stack_super this)) (N.to_nat idx).

(** Modelled from the spec: [UIStack::add_child] is declared in [ui.h] and
    defined outside it.  The stack is a vector-backed ordered container
    whose children are kept in the order they were added, so adding a
    child appends it to [m_children]. *)
Definition add_child (this : UIStack) (child : shared_ptr_UI) : UIStack :=
  {| stack_super :=
       {| vec_base := vec_base (stack_super this);
          m_children := m_children (stack_super this) ++ [child] |} |}.

(** ** The event registry [Slot<Target, bool (Args...)>] *)

Module Slot.
Section Slot.

(** [Args] is the event payload.  A handler is a [std::function]: a
    closure that may read and change the state it captured, the [World].
    Handlers do not touch the registry that holds them. *)
Variables Args World : Type.

Definition Target : Type := Z.

Definition HandlerSig : Type := Args -> World -> bool * World.

(** [std::multimap<Target*, HandlerSig>]: the entries in iteration
    order, that is by ascending key. *)
Definition HandlerMap : Type := list (Target * HandlerSig).

Definition empty : HandlerMap := [].

(** [multimap::insert]: the new entry goes to the upper bound of its
    key, in front of the first entry with a greater key. *)
Fixpoint insert (p : Target * HandlerSig) (m : HandlerMap) : HandlerMap :=
  match m with
  | [] => [p]
  | q :: m' => if fst p <? fst q then p :: q :: m' else q :: insert p m'
  end.

(** The entries from [multimap::lower_bound] on: the first entry whose
    key is not less than [target], and all that follow. *)
Fixpoint from_lower_bound (target : Target) (m : HandlerMap) : HandlerMap :=
  match m with
  | [] => []
  | q :: m' => if fst q <? target then from_lower_bound target m' else m
  end.

(** The entries in front of [multimap::upper_bound]: up to the first
    entry whose key is greater than [target]. *)
Fixpoint upto_upper_bound (target : Target) (m : HandlerMap) : HandlerMap :=
  match m with
  | [] => []
  | q :: m' => if target <? fst q then [] else q :: upto_upper_bound target m'
  end.

(** [multimap::equal_range]: the entries between the two bounds. *)
Definition equal_range (target : Target) (m : HandlerMap) : HandlerMap :=
  upto_upper_bound target (from_lower_bound target m).

(** [multimap::erase(key)]: every entry with that key goes. *)
Fixpoint erase (target : Target) (m : HandlerMap) : HandlerMap :=
  match m with
  | [] => []
  | q :: m' => if fst q =? target then erase target m' else q :: erase target m'
  end.

(** What one call of [emit] did: its return value, the state the
    handlers left, and the handlers it invoked, in order, each with the
    value it returned. *)
Record emitted : Type := Emitted {
  consumed : bool;
  world : World;
  invoked : list (HandlerSig * bool)
}.

(** The loop of [Slot::emit] over the iterator range.  Each handler is
    copied out of the map and called on the arguments of the event. *)
Fixpoint emit_range (range : HandlerMap) (args : Args) (w : World) : emitted :=
  match range with
  | [] => Emitted false w []
  | it :: range' =>
      let func := snd it in
      let (r, w') := func args w in
      if r then Emitted true w' [(func, true)]
      else
        let e := emit_range range' args w' in
        Emitted (consumed e) (world e) ((func, false) :: invoked e)
  end.

(** [ran tr args w w']: calling the handlers of the trace [tr] one
    after the other on [args], starting in state [w], returns the
    recorded values and ends in state [w']. *)
Fixpoint ran (tr : list (HandlerSig * bool)) (args : Args) (w w' : World)
    : Prop :=
  match tr with
  | [] => w' = w
  | (h, b) :: tr' =>
      let (r, w1) := h args w in r = b /\ ran tr' args w1 w'
  end.

(** [Slot::emit]. *)
Definition emit (handlers : HandlerMap) (target : Target) (args : Args)
    (w : World) : emitted :=
  emit_range (equal_range target handlers) args w.

(** [Slot::on]. *)
Definition on (handlers : HandlerMap) (target : Target)
    (handler : HandlerSig) : HandlerMap :=
  insert (target, handler) handlers.

(** [Slot::remove_by_target]. *)
Definition remove_by_target (handlers : HandlerMap) (target : Target)
    : HandlerMap :=
  erase target handlers.

(** The calls that change a registry, and a registry's history. *)
Inductive call : Type :=
| On (target : Target) (handler : HandlerSig)
| RemoveByTarget (target : Target).

Definition apply_call (handlers : HandlerMap) (c : call) : HandlerMap :=
  match c with
  | On target handler => on handlers target handler
  | RemoveByTarget target => remove_by_target handlers target
  end.

Definition after_calls (history : list call) : HandlerMap :=
  fold_left apply_call history empty.

(** The handlers a history leaves registered against [target], oldest
    registration first. *)
Fixpoint registered_from (acc : list HandlerSig) (target : Target)
    (history : list call) : list HandlerSig :=
  match history with
  | [] => acc
  | On t h :: history' =>
      registered_from (if t =? target then acc ++ [h] else acc) target history'
  | RemoveByTarget t :: history' =>
      registered_from (if t =? target then [] else acc) target history'
  end.

Definition registered (target : Target) (history : list call)
    : list HandlerSig :=
  registered_from [] target history.

(** The keys of a registry are in ascending order. *)
Definition key_le (p q : Target * HandlerSig) : Prop := fst p <= fst q.

Definition ordered (m : HandlerMap) : Prop := StronglySorted key_le m.

(** The entries of a registry under one key, in iteration order. *)
Definition entries_of (target : Target) (m : HandlerMap) : HandlerMap :=
  filter (fun q => fst q =? target) m.

End Slot.
End Slot.

(** The process-wide registry [UI::slots] and the two members of [UI]
    that reach it.  A widget's identity is its address [this]. *)
Section UISlots.

(** [wm_event] comes from [windowmanager.h]. *)
Variables wm_event World : Type.

Record slots : Type := Slots { event : Slot.HandlerMap wm_event World }.

(** [UI::on(slot, cb)], for the slot [UI::slots.event]. *)
Definition UI_on (this : Z) (s : slots)
    (cb : Slot.HandlerSig wm_event World) : slots :=
  {| event := Slot.on (event s) this cb |}.

(** [UI::~UI()]. *)
Definition delete_UI (this : Z) (s : slots) : slots :=
  {| event := Slot.remove_by_target (event s) this |}.

End UISlots.

(** ** The grid [UIGrid] *)

Module Grid.

Record track_info : Type := Track {
  size : Z;
  offset : Z;
  sr : UISizeReq;
  flex_grow : Z
}.

Record child_info : Type := Child {
  pos : i2;
  span : i2;
  widget : shared_ptr_UI
}.

Record UIGrid : Type := mkGrid {
  grid_base : UI;
  m_col_info : list track_info;
  m_row_info : list track_info;
  m_child_info : list child_info;
  m_track_info_dirty : bool
}.

(** [UIGrid::UIGrid()]. *)
Definition new_UIGrid (ind : indeterminate) : UIGrid :=
  {| grid_base := new_UI ind;
     m_col_info := [];
     m_row_info := [];
     m_child_info := [];
     m_track_info_dirty := false |}.

(** The [int&] that [track_flex_grow] returns: the track whose
    [flex_grow] member it designates. *)
Inductive flex_grow_ref : Type :=
| ColFlexGrow (x : Z)
| RowFlexGrow (y : Z).

(** Reading through such a reference. *)
Definition deref (this : UIGrid) (r : flex_grow_ref) : option Z :=
  match r with
  | ColFlexGrow x => option_map flex_grow (vec_at (m_col_info this) x)
  | RowFlexGrow y => option_map flex_grow (vec_at (m_row_info this) y)
  end.

Section TrackFlexGrow.

(** [UIGrid::init_track_info] is declared in [ui.h] and defined
    outside it: whatever it does to the grid is a parameter. *)
Variable init_track_info : UIGrid -> UIGrid.

(** [UIGrid::track_flex_grow]: the result, and the grid as
    [init_track_info] left it.  The macro [ASSERT] is defined outside
    [ui.h]; as the specification has it, a failed assertion is fatal,
    the outcome [AssertFailed]. *)
Definition track_flex_grow (this : UIGrid) (x y : Z)
    : outcome flex_grow_ref * UIGrid :=
  let this' := init_track_info this in
  if (x =? -1) || (y =? -1) then
    if x >=? 0 then
      match vec_at (m_col_info this') x with
      | Some _ => (Returned (ColFlexGrow x), this')
      | None => (OutOfRange, this')
      end
    else
      match vec_at (m_row_info this') y with
      | Some _ => (Returned (RowFlexGrow y), this')
      | None => (OutOfRange, this')
      end
  else (AssertFailed, this').

End TrackFlexGrow.

(** [UIGrid::get_tracks_region]; [None] when one of the four vector
    accesses falls outside its vector. *)
Definition get_tracks_region (this : UIGrid) (x y w h : Z) : option i4 :=
  match vec_at (m_col_info this) x,
        vec_at (m_row_info this) y,
        vec_at (m_col_info this) (Int.sub (Int.add x w) 1),
        vec_at (m_row_info this) (Int.sub (Int.add y h) 1) with
  | Some cx, Some ry, Some cl, Some rl =>
      Some (I4 (offset cx) (offset ry)
               (Int.sub (Int.add (size cl) (offset cl)) (offset cx))
               (Int.sub (Int.add (size rl) (offset rl)) (offset ry)))
  | _, _, _, _ => None
  end.

(** The track invariant: each track starts where the one before it
    ends, [offset[i+1] == offset[i] + size[i]] in [int] arithmetic. *)
Fixpoint contiguous (tracks : list track_info) : Prop :=
  match tracks with
  | [] => True
  | t :: rest =>
      match rest with
      | [] => True
      | t' :: _ => offset t' = Int.add (offset t) (size t) /\ contiguous rest
      end
  end.

(** The sizes of the [w] tracks from track [x] on. *)
Definition span_sizes (tracks : list track_info) (x w : Z) : list Z :=
  map size (firstn (Z.to_nat w) (skipn (Z.to_nat x) tracks)).

(** The same tracks with other flex weights. *)
Definition same_geometry (t t' : track_info) : Prop :=
  size t = size t' /\ offset t = offset t'.

End Grid.

(** ** Inequality of the geometry primitives *)

(** [i4::operator!=] and [i2::operator!=]. *)
Definition i4_neb (a b : i4) : bool := negb (i4_eqb a b).

Definition i2_neb (a b : i2) : bool := negb (i2_eqb a b).

(** ** Container iterators *)

Module Iter.

(** [operator==] of two [std::vector]s: the same size and equal
    elements, position by position. *)
Fixpoint vector_eqb {A : Type} (eqb : A -> A -> bool) (a b : list A) : bool :=
  match a, b with
  | [], [] => true
  | x :: a', y :: b' => eqb x y && vector_eqb eqb a' b'
  | _, _ => false
  end.

(** The interface [UIContainer::iter_impl].  [operator++] has no result
    on an iterator that cannot advance, [operator*] none on one that
    designates no element: both are undefined there. *)
Class iter_impl (I : Type) : Type := {
  incr : I -> option I;
  deref : I -> option shared_ptr_UI;
  equal : I -> I -> bool
}.

(** [UIContainerVec::iter_impl_vec]: the vector it refers to and a
    [vector::iterator], a position in that vector counted from its
    first element. *)
Record iter_impl_vec : Type := IterVec {
  vec_c : list shared_ptr_UI;
  vec_it : nat
}.

#[export] Instance iter_impl_vec_ops : iter_impl iter_impl_vec := {|
  incr i :=
    if (vec_it i <? length (vec_c i))%nat
    then Some (IterVec (vec_c i) (S (vec_it i)))
    else None;
  deref i := nth_error (vec_c i) (vec_it i);
  equal a b :=
    vector_eqb Z.eqb (vec_c a) (vec_c b) && (vec_it a =? vec_it b)%nat
|}.

(** [child_info::operator==]: two entries are equal when they hold the
    same widget. *)
Definition child_info_eqb (a b : Grid.child_info) : bool :=
  Grid.widget a =? Grid.widget b.

(** [UIGrid::iter_impl_grid]: a copy of the vector of child entries and
    a position in the grid's own vector. *)
Record iter_impl_grid : Type := IterGrid {
  grid_c : list Grid.child_info;
  grid_it : nat
}.

#[export] Instance iter_impl_grid_ops : iter_impl iter_impl_grid := {|
  incr i :=
    if (grid_it i <? length (grid_c i))%nat
    then Some (IterGrid (grid_c i) (S (grid_it i)))
    else None;
  deref i := option_map Grid.widget (nth_error (grid_c i) (grid_it i));
  equal a b :=
    vector_eqb child_info_eqb (grid_c a) (grid_c b) &&
    (grid_it a =? grid_it b)%nat
|}.

Section Iterator.

Context {I : Type} `{iter_impl I}.

(** [UIContainer::iterator], the owner of one [iter_impl]. *)
Record iterator : Type := Iterator { it : I }.

(** [iterator::operator++]. *)
Definition iterator_incr (i : iterator) : option iterator :=
  option_map Iterator (incr (it i)).

(** [iterator::operator==]: both members [it] have the static type
    [iter_impl*], so the [typeid] comparison holds, and the result is
    that of [equal]. *)
Definition iterator_eqb (i other : iterator) : bool :=
  true && equal (it i) (it other).

(** [iterator::operator!=]. *)
Definition iterator_neb (i other : iterator) : bool :=
  negb (iterator_eqb i other).

(** [iterator::operator*]. *)
Definition iterator_deref (i : iterator) : option shared_ptr_UI :=
  deref (it i).

(** [k] applications of [operator++]. *)
Fixpoint advance (k : nat) (i : iterator) : option iterator :=
  match k with
  | O => Some i
  | S k' =>
      match iterator_incr i with
      | Some i' => advance k' i'
      | None => None
      end
  end.

(** The loop [for (it = first; it != last; ++it)] collecting [*it]:
    [None] when it runs into an undefined operation or out of [fuel]. *)
Fixpoint range_for (fuel : nat) (first last : iterator)
    : option (list shared_ptr_UI) :=
  if iterator_neb first last then
    match fuel with
    | O => None
    | S fuel' =>
        match iterator_deref first, iterator_incr first with
        | Some child, Some next =>
            option_map (cons child) (range_for fuel' next last)
        | _, _ => None
        end
    end
  else Some [].

End Iterator.

(** [UIContainerVec::begin] and [UIContainerVec::end]. *)
Definition vec_begin (this : UIContainerVec) : @iterator iter_impl_vec :=
  Iterator (IterVec (m_children this) 0).

Definition vec_end (this : UIContainerVec) : @iterator iter_impl_vec :=
  Iterator (IterVec (m_children this) (length (m_children this))).

(** [UIGrid::begin] and [UIGrid::end]. *)
Definition grid_begin (this : Grid.UIGrid) : @iterator iter_impl_grid :=
  Iterator (IterGrid (Grid.m_child_info this) 0).

Definition grid_end (this : Grid.UIGrid) : @iterator iter_impl_grid :=
  Iterator (IterGrid (Grid.m_child_info this)
                     (length (Grid.m_child_info this))).

End Iter.

(** ** Sample widgets *)

Definition sample_indeterminate : indeterminate :=
  Indeterminate (I4 0 0 0 0) (SizeReq 0 0, SizeReq 0 0) 0.

(** Three columns of sizes 10, 20 and 30 with flex weights 1, 0 and 5,
    and two rows of sizes 7 and 9. *)
Definition sample_grid : Grid.UIGrid :=
  Grid.mkGrid (new_UI sample_indeterminate)
    [Grid.Track 10 0 (SizeReq 0 0) 1;
     Grid.Track 20 10 (SizeReq 0 0) 0;
     Grid.Track 30 30 (SizeReq 0 0) 5]
    [Grid.Track 7 0 (SizeReq 0 0) 1;
     Grid.Track 9 7 (SizeReq 0 0) 2]
    [] false.

(* ================================================================== *)
(** * Properties *)
(* ================================================================== *)

(** ** Construction and margins *)

(** C7.  A newly constructed base widget has margin (0,0,0,0), flex-grow
    weight 1, unset self-alignment, both expansion hints false, and both
    per-dimension cache entries marked invalid, whatever its
    uninitialised members hold. *)
Theorem new_UI_defaults : forall ind : indeterminate,
  margin (new_UI ind) = I4 0 0 0 0 /\
  flex_grow (new_UI ind) = 1 /\
  align_self (new_UI ind) = UI_ALIGN_UNSET /\
  expand_h (new_UI ind) = false /\
  expand_v (new_UI ind) = false /\
  arr2_get (cached_sr_valid (new_UI ind)) 0 = Some false /\
  arr2_get (cached_sr_valid (new_UI ind)) 1 = Some false.
Proof.
  intros ind. unfold new_UI; simpl. repeat split.
Qed.

(** [set_margin] assigns the margin and nothing else. *)
Lemma set_margin_frame : forall (this : UI) (m : i4),
  margin (set_margin this m) = m /\
  flex_grow (set_margin this m) = flex_grow this /\
  align_self (set_margin this m) = align_self this /\
  expand_h (set_margin this m) = expand_h this /\
  expand_v (set_margin this m) = expand_v this /\
  m_region (set_margin this m) = m_region this /\
  cached_sr_valid (set_margin this m) = cached_sr_valid this /\
  cached_sr (set_margin this m) = cached_sr this /\
  cached_sr_pw (set_margin this m) = cached_sr_pw this.
Proof.
  intros this m. unfold set_margin; simpl. repeat split.
Qed.

(** C9.  In each build configuration exactly one of the two setters
    assigns its argument to the margin, changing no other member, and the
    other returns the widget as it was: with [USE_TILE_LOCAL] it is
    [set_margin_for_sdl] that assigns, without it [set_margin_for_crt]. *)
Theorem set_margin_per_backend :
  forall (USE_TILE_LOCAL : build_config) (this : UI) (m : i4),
    let assigned := set_margin this m in
    margin assigned = m /\
    flex_grow assigned = flex_grow this /\
    align_self assigned = align_self this /\
    expand_h assigned = expand_h this /\
    expand_v assigned = expand_v this /\
    m_region assigned = m_region this /\
    cached_sr_valid assigned = cached_sr_valid this /\
    cached_sr assigned = cached_sr this /\
    cached_sr_pw assigned = cached_sr_pw this /\
    if USE_TILE_LOCAL
    then set_margin_for_sdl USE_TILE_LOCAL this m = assigned /\
         set_margin_for_crt USE_TILE_LOCAL this m = this
    else set_margin_for_crt USE_TILE_LOCAL this m = assigned /\
         set_margin_for_sdl USE_TILE_LOCAL this m = this.
Proof.
  intros cfg this m assigned.
  pose proof (set_margin_frame this m) as F.
  repeat match type of F with _ /\ _ => destruct F as [? F] end.
  repeat (split; [assumption|]).
  destruct cfg; split; reflexivity.
Qed.

(** C10.  A newly constructed box is a column ([horz] false) with
    [justify_items] start and [align_items] unset, and both of its
    expansion hints are true, where those of a bare base widget are
    false; the other base attributes are the base defaults and it has no
    children. *)
Theorem new_UIBox_defaults : forall ind : indeterminate,
  let b := new_UIBox ind in
  let u := vec_base (box_super b) in
  horz b = false /\
  justify_items b = UI_JUSTIFY_START /\
  align_items b = UI_ALIGN_UNSET /\
  expand_h u = true /\
  expand_v u = true /\
  expand_h (new_UI ind) = false /\
  expand_v (new_UI ind) = false /\
  margin u = margin (new_UI ind) /\
  flex_grow u = flex_grow (new_UI ind) /\
  align_self u = align_self (new_UI ind) /\
  cached_sr_valid u = cached_sr_valid (new_UI ind) /\
  m_children (box_super b) = [].
Proof.
  intros ind b u. subst b u. unfold new_UIBox, set_expand, new_UI; simpl.
  repeat split.
Qed.

(** ** Stack children *)

Lemma m_children_add_all : forall (children : list shared_ptr_UI) (s : UIStack),
  m_children (stack_super (fold_left add_child children s)) =
  m_children (stack_super s) ++ children.
Proof.
  induction children as [|c children IH]; intros s; simpl.
  - now rewrite app_nil_r.
  - rewrite IH. unfold add_child; simpl. now rewrite <- app_assoc.
Qed.

(** C8.  [get_child(idx)] yields a child exactly when
    [idx < num_children()], and is outside the vector exactly when
    [idx >= num_children()]; on a stack built by adding children one by
    one it yields the [idx]-th child added. *)
Theorem get_child_in_bounds :
  (forall (s : UIStack) (idx : N),
      ((idx < num_children s)%N <-> exists c, get_child s idx = Some c) /\
      ((num_children s <= idx)%N <-> get_child s idx = None)) /\
  (forall (ind : indeterminate) (children : list shared_ptr_UI) (idx : N),
      let s := fold_left add_child children (new_UIStack ind) in
      num_children s = N.of_nat (length children) /\
      get_child s idx = nth_error children (N.to_nat idx)).
Proof.
  split.
  - intros s idx. unfold num_children, get_child.
    set (v := m_children (stack_super s)).
    split; split.
    + intros H.
      destruct (nth_error v (N.to_nat idx)) as [c|] eqn:E; [now exists c|].
      apply nth_error_None in E. lia.
    + intros [c E].
      assert (N.to_nat idx < length v)%nat
        by (apply nth_error_Some; congruence).
      lia.
    + intros H. apply nth_error_None. lia.
    + intros E. apply nth_error_None in E. lia.
  - intros ind children idx s. subst s.
    unfold num_children, get_child.
    rewrite m_children_add_all. simpl. split; reflexivity.
Qed.

(** ** The event registry *)

Section SlotFacts.

Variables Args World : Type.

Abbreviation HandlerSig := (Slot.HandlerSig Args World).
Abbreviation HandlerMap := (Slot.HandlerMap Args World).
Abbreviation ordered := (@Slot.ordered Args World).
Abbreviation entries_of := (@Slot.entries_of Args World).

Implicit Types (m : HandlerMap) (p q : Slot.Target * HandlerSig).
Implicit Types (t target : Slot.Target).

(** *** The registry stays in key order *)

Ltac key_lia := unfold Slot.key_le, Slot.Target in *; simpl in *; lia.

(** Case analysis on the first key comparison the goal shows. *)
Ltac case_keys :=
  match goal with
  | |- context [Z.ltb ?a ?b] => destruct (Z.ltb_spec a b)
  | |- context [Z.eqb ?a ?b] => destruct (Z.eqb_spec a b)
  end.

Lemma ordered_inv : forall q m,
  ordered (q :: m) -> ordered m /\ Forall (fun q' => fst q <= fst q') m.
Proof.
  intros q m H. inversion H; subst. split; assumption.
Qed.

Lemma Forall_insert : forall (P : Slot.Target * HandlerSig -> Prop) p m,
  P p -> Forall P m -> Forall P (Slot.insert p m).
Proof.
  intros P p m Hp. induction 1 as [|q m Hq Hm IH]; simpl.
  - constructor; [assumption | constructor].
  - case_keys.
    + constructor; [assumption|]. constructor; assumption.
    + constructor; assumption.
Qed.

Lemma ordered_insert : forall p m, ordered m -> ordered (Slot.insert p m).
Proof.
  intros p m. induction m as [|q m IH]; intros Hm; simpl.
  - constructor; constructor.
  - apply ordered_inv in Hm. destruct Hm as [Hm Hq].
    case_keys.
    + constructor.
      * constructor; assumption.
      * constructor; [key_lia|].
        eapply Forall_impl; [|exact Hq]. intros q' Hq'. key_lia.
    + constructor.
      * apply IH; assumption.
      * apply Forall_insert; [assumption | exact Hq].
Qed.

Lemma Forall_erase : forall (P : Slot.Target * HandlerSig -> Prop) t m,
  Forall P m -> Forall P (Slot.erase t m).
Proof.
  intros P t m. induction 1 as [|q m Hq Hm IH]; simpl.
  - constructor.
  - case_keys; [assumption | constructor; assumption].
Qed.

Lemma ordered_erase : forall t m, ordered m -> ordered (Slot.erase t m).
Proof.
  intros t m. induction m as [|q m IH]; intros Hm; simpl.
  - constructor.
  - apply ordered_inv in Hm. destruct Hm as [Hm Hq].
    case_keys.
    + apply IH; assumption.
    + constructor; [apply IH; assumption | apply Forall_erase; exact Hq].
Qed.

Lemma ordered_apply_call : forall m (c : Slot.call Args World),
  ordered m -> ordered (Slot.apply_call m c).
Proof.
  intros m [t h|t] Hm; simpl.
  - apply ordered_insert; assumption.
  - apply ordered_erase; assumption.
Qed.

Lemma ordered_fold_calls : forall (history : list (Slot.call Args World)) m,
  ordered m -> ordered (fold_left (@Slot.apply_call Args World) history m).
Proof.
  induction history as [|c history IH]; intros m Hm; simpl.
  - assumption.
  - apply IH, ordered_apply_call, Hm.
Qed.

Lemma ordered_after_calls : forall history : list (Slot.call Args World),
  ordered (Slot.after_calls history).
Proof.
  intros history. apply ordered_fold_calls. constructor.
Qed.

(** *** [equal_range] finds the entries of a key, in order *)

Lemma entries_of_cons : forall t q m,
  entries_of t (q :: m) =
  if fst q =? t then q :: entries_of t m else entries_of t m.
Proof. reflexivity. Qed.

Lemma entries_of_above : forall t m,
  Forall (fun q => t < fst q) m -> entries_of t m = [].
Proof.
  intros t m. induction 1 as [|q m Hq Hm IH].
  - reflexivity.
  - rewrite entries_of_cons. case_keys; [key_lia | exact IH].
Qed.

Lemma upto_upper_bound_entries : forall t m,
  ordered m -> Forall (fun q => t <= fst q) m ->
  Slot.upto_upper_bound t m = entries_of t m.
Proof.
  intros t m. induction m as [|q m IH]; intros Hm Hge.
  - reflexivity.
  - apply ordered_inv in Hm. destruct Hm as [Hm Hq].
    inversion Hge as [|? ? Hq0 Hge']; subst.
    rewrite entries_of_cons. cbn [Slot.upto_upper_bound].
    case_keys; case_keys; try key_lia.
    + symmetry. apply entries_of_above.
      eapply Forall_impl; [|exact Hq]. intros q' Hq'. key_lia.
    + f_equal. apply IH; assumption.
Qed.

Lemma equal_range_entries : forall t m,
  ordered m -> Slot.equal_range t m = entries_of t m.
Proof.
  intros t m. unfold Slot.equal_range.
  induction m as [|q m IH]; intros Hm.
  - reflexivity.
  - pose proof (ordered_inv Hm) as [Hm' Hq].
    cbn [Slot.from_lower_bound].
    case_keys.
    + rewrite entries_of_cons. case_keys; [key_lia|].
      apply IH; assumption.
    + apply upto_upper_bound_entries; [assumption|].
      constructor; [assumption|].
      eapply Forall_impl; [|exact Hq]. intros q' Hq'. key_lia.
Qed.

(** *** Registration appends, removal clears *)

Lemma entries_of_insert : forall t (u : Slot.Target) (h : HandlerSig) m,
  ordered m ->
  entries_of t (Slot.insert (u, h) m) =
  if u =? t then entries_of t m ++ [(u, h)] else entries_of t m.
Proof.
  intros t u h m. induction m as [|q m IH]; intros Hm.
  - cbn [Slot.insert]. rewrite entries_of_cons. reflexivity.
  - pose proof (ordered_inv Hm) as [Hm' Hq].
    cbn [Slot.insert fst].
    case_keys.
    + rewrite entries_of_cons. cbn [fst].
      case_keys; [|reflexivity]. subst u.
      rewrite (@entries_of_above t (q :: m)); [reflexivity|].
      constructor; [assumption|].
      eapply Forall_impl; [|exact Hq]. intros q' Hq'. key_lia.
    + rewrite !entries_of_cons, (IH Hm').
      repeat case_keys; reflexivity.
Qed.

Lemma erase_filter : forall t m,
  Slot.erase t m = filter (fun q => negb (fst q =? t)) m.
Proof.
  intros t m. induction m as [|q m IH]; simpl.
  - reflexivity.
  - case_keys; simpl; now rewrite IH.
Qed.

Lemma entries_of_erase : forall t (u : Slot.Target) m,
  entries_of t (Slot.erase u m) =
  if u =? t then [] else entries_of t m.
Proof.
  intros t u m. induction m as [|q m IH].
  - simpl. case_keys; reflexivity.
  - cbn [Slot.erase]. case_keys.
    + rewrite IH, entries_of_cons.
      repeat case_keys; try reflexivity; key_lia.
    + rewrite !entries_of_cons, IH.
      repeat case_keys; try reflexivity; key_lia.
Qed.

Lemma registered_fold : forall (history : list (Slot.call Args World)) target m,
  ordered m ->
  map snd (entries_of target
             (fold_left (@Slot.apply_call Args World) history m)) =
  Slot.registered_from (map snd (entries_of target m)) target history.
Proof.
  induction history as [|c history IH]; intros target m Hm.
  - reflexivity.
  - cbn [fold_left]. rewrite IH by (apply ordered_apply_call, Hm).
    destruct c as [t h|t]; cbn [Slot.apply_call Slot.registered_from].
    + unfold Slot.on. rewrite entries_of_insert by assumption.
      case_keys; [|reflexivity].
      now rewrite map_app.
    + unfold Slot.remove_by_target. rewrite entries_of_erase.
      case_keys; reflexivity.
Qed.

(** On a registry with history [history], the range [emit] walks holds
    the handlers registered against the target, oldest first. *)
Lemma equal_range_registered : forall (history : list (Slot.call Args World)) target,
  map snd (Slot.equal_range target (Slot.after_calls history)) =
  Slot.registered target history.
Proof.
  intros history target.
  rewrite equal_range_entries by apply ordered_after_calls.
  unfold Slot.after_calls, Slot.registered.
  rewrite registered_fold by constructor. reflexivity.
Qed.

(** *** The loop of [emit] *)

Lemma emit_range_trace : forall (range : HandlerMap) (args : Args) (w : World),
  let e := Slot.emit_range range args w in
  Slot.ran (Slot.invoked e) args w (Slot.world e) /\
  if Slot.consumed e
  then exists pre h rest,
      map snd range = map fst pre ++ h :: rest /\
      Slot.invoked e = pre ++ [(h, true)] /\
      Forall (fun x => snd x = false) pre
  else map fst (Slot.invoked e) = map snd range /\
       Forall (fun x => snd x = false) (Slot.invoked e).
Proof.
  induction range as [|it range IH]; intros args w.
  - simpl. repeat split. constructor.
  - cbn [Slot.emit_range].
    destruct (snd it args w) as [r w1] eqn:Ecall.
    destruct r.
    + cbn. rewrite Ecall. split; [split; reflexivity|].
      exists [], (snd it), (map snd range). repeat split. constructor.
    + specialize (IH args w1). cbv zeta in IH. destruct IH as [Hran IH].
      cbn [Slot.consumed Slot.world Slot.invoked].
      split.
      * cbn [Slot.ran]. rewrite Ecall. split; [reflexivity | exact Hran].
      * destruct (Slot.consumed (Slot.emit_range range args w1)).
        -- destruct IH as (pre & h & rest & Hhs & Hinv & Hpre).
           exists ((snd it, false) :: pre), h, rest.
           cbn [map fst app]. rewrite Hhs, Hinv.
           repeat split. constructor; [reflexivity | exact Hpre].
        -- destruct IH as [Hall Hfalse].
           cbn [map fst]. rewrite Hall.
           split; [reflexivity|]. constructor; [reflexivity | exact Hfalse].
Qed.

(** C4.  On a registry reached by any sequence of registrations and
    removals, [emit] calls handlers registered against exactly the
    given target, in registration order.  It stops at the first that
    returns true and returns true: the handlers registered after that
    one are not called.  When none returns true, and so when none is
    registered, it has called every handler of the target once and
    returns false. *)
Theorem emit_dispatch :
  forall (history : list (Slot.call Args World)) (target : Slot.Target)
         (args : Args) (w : World),
    let hs := Slot.registered target history in
    let e := Slot.emit (Slot.after_calls history) target args w in
    Slot.ran (Slot.invoked e) args w (Slot.world e) /\
    (if Slot.consumed e
     then exists pre h rest,
         hs = map fst pre ++ h :: rest /\
         Slot.invoked e = pre ++ [(h, true)] /\
         Forall (fun x => snd x = false) pre
     else map fst (Slot.invoked e) = hs /\
          Forall (fun x => snd x = false) (Slot.invoked e)) /\
    (hs = [] -> Slot.consumed e = false /\ Slot.invoked e = []).
Proof.
  intros history target args w hs e.
  pose proof (emit_range_trace
                (Slot.equal_range target (Slot.after_calls history)) args w)
    as H.
  cbv zeta in H. rewrite equal_range_registered in H.
  fold hs in H. unfold Slot.emit in e. fold e in H.
  destruct H as [Hran H]. split; [exact Hran|]. split; [exact H|].
  intros Hnil. rewrite Hnil in H.
  destruct (Slot.consumed e).
  - destruct H as (pre & h & rest & Hhs & _).
    destruct pre; discriminate Hhs.
  - split; [reflexivity|]. destruct H as [H _].
    destruct (Slot.invoked e); [reflexivity | discriminate H].
Qed.

End SlotFacts.

Section UISlotsFacts.

Variables wm_event World : Type.

(** C5.  Destroying a widget removes from the registry [UI::slots.event]
    every handler registered under the widget's own identity and
    nothing else: the entries under every other identity stay, in the
    order they had. *)
Theorem delete_UI_deregisters :
  forall (history : list (Slot.call wm_event World)) (this : Z),
    let s := Slots (Slot.after_calls history) in
    let s' := delete_UI this s in
    event s' = filter (fun q => negb (fst q =? this)) (event s) /\
    Slot.equal_range this (event s') = [] /\
    (forall t, t <> this ->
               Slot.equal_range t (event s') = Slot.equal_range t (event s)) /\
    (forall t h, In (t, h) (event s') <-> In (t, h) (event s) /\ t <> this).
Proof.
  intros history this s s'. subst s s'.
  unfold delete_UI, Slot.remove_by_target. cbn [event].
  pose proof (ordered_after_calls history) as Hord.
  split; [apply erase_filter|]. split; [|split].
  - rewrite equal_range_entries by (apply ordered_erase, Hord).
    rewrite entries_of_erase, Z.eqb_refl. reflexivity.
  - intros t Ht.
    rewrite !equal_range_entries
      by (try apply ordered_erase; exact Hord).
    rewrite entries_of_erase.
    destruct (Z.eqb_spec this t); [congruence | reflexivity].
  - intros t h. rewrite erase_filter, filter_In. cbn [fst].
    destruct (Z.eqb_spec t this); cbn; intuition congruence.
Qed.

End UISlotsFacts.

(** ** Wrap-around arithmetic *)

Lemma wrap_in_range : forall z, Int.in_range z -> Int.wrap z = z.
Proof.
  unfold Int.in_range, Int.min_int, Int.max_int, Int.wrap. intros z Hz.
  rewrite Z.mod_small; lia.
Qed.

Lemma wrap_add_l : forall a b, Int.wrap (Int.wrap a + b) = Int.wrap (a + b).
Proof.
  intros a b. unfold Int.wrap. f_equal.
  replace ((a + 2 ^ 31) mod 2 ^ 32 - 2 ^ 31 + b + 2 ^ 31)
    with ((a + 2 ^ 31) mod 2 ^ 32 + b) by ring.
  rewrite Zplus_mod_idemp_l. f_equal. ring.
Qed.

Lemma wrap_add_r : forall a b, Int.wrap (a + Int.wrap b) = Int.wrap (a + b).
Proof.
  intros a b. rewrite Z.add_comm, wrap_add_l. f_equal. ring.
Qed.

Lemma wrap_sub_l : forall a b, Int.wrap (Int.wrap a - b) = Int.wrap (a - b).
Proof.
  intros a b. unfold Z.sub. apply wrap_add_l.
Qed.

Lemma fold_add_wrap : forall (l : list Z) (a : Z),
  fold_left Int.add l (Int.wrap a) = Int.wrap (a + Zsum l).
Proof.
  induction l as [|z l IH]; intros a; simpl.
  - now rewrite Z.add_0_r.
  - unfold Int.add at 2. rewrite wrap_add_l, IH. f_equal. ring.
Qed.

Lemma sum_wrap : forall l : list Z, Int.sum l = Int.wrap (Zsum l).
Proof.
  intros l. unfold Int.sum.
  change 0 with (Int.wrap 0) at 1. rewrite fold_add_wrap. reflexivity.
Qed.

(** ** Grid tracks *)

Section GridFacts.

Import Grid.

Lemma vec_at_nat : forall (A : Type) (v : list A) (i : Z),
  0 <= i -> vec_at v i = nth_error v (Z.to_nat i).
Proof.
  intros A v i Hi. unfold vec_at.
  destruct (Z.ltb_spec i 0); [lia | reflexivity].
Qed.

Lemma vec_at_Some : forall (A : Type) (v : list A) (i : Z),
  0 <= i < Z.of_nat (length v) -> exists a, vec_at v i = Some a.
Proof.
  intros A v i Hi. rewrite vec_at_nat by lia.
  destruct (nth_error v (Z.to_nat i)) as [a|] eqn:E; [now exists a|].
  apply nth_error_None in E. lia.
Qed.

Lemma contiguous_tail : forall t tracks,
  contiguous (t :: tracks) -> contiguous tracks.
Proof.
  intros t [|t' tracks] H; [exact I | exact (proj2 H)].
Qed.

Lemma contiguous_skipn : forall (n : nat) tracks,
  contiguous tracks -> contiguous (skipn n tracks).
Proof.
  induction n as [|n IH]; intros [|t tracks] H; try exact H.
  cbn [skipn]. apply IH. eapply contiguous_tail, H.
Qed.

(** Along contiguous tracks, the far edge of the [k]-th track after a
    track [c0] lies beyond the near edge of [c0] by the sizes of the
    tracks in between, up to wrap-around. *)
Lemma far_edge : forall (k : nat) (c0 cl : track_info) tracks,
  contiguous (c0 :: tracks) ->
  nth_error (c0 :: tracks) k = Some cl ->
  Int.wrap (size cl + offset cl) =
  Int.wrap (offset c0 + Zsum (map size (firstn (S k) (c0 :: tracks)))).
Proof.
  induction k as [|k IH]; intros c0 cl tracks Hc Hk.
  - cbn in Hk. injection Hk as <-. cbn. f_equal. ring.
  - destruct tracks as [|c1 tracks]; [destruct k; discriminate Hk|].
    cbn [nth_error] in Hk. destruct Hc as [Hoff Hc].
    rewrite (IH c1 cl tracks Hc Hk).
    change (firstn (S (S k)) (c0 :: c1 :: tracks))
      with (c0 :: firstn (S k) (c1 :: tracks)).
    cbn [map Zsum fold_right]. fold (Zsum (map size (firstn (S k) (c1 :: tracks)))).
    rewrite Hoff. unfold Int.add. rewrite wrap_add_l. f_equal. ring.
Qed.

(** The extent [get_tracks_region] computes along one axis. *)
Lemma span_extent : forall tracks (x w : Z) (cx cl : track_info),
  contiguous tracks ->
  0 <= x -> 1 <= w ->
  vec_at tracks x = Some cx ->
  vec_at tracks (x + w - 1) = Some cl ->
  Int.sub (Int.add (size cl) (offset cl)) (offset cx) =
  Int.sum (span_sizes tracks x w).
Proof.
  intros tracks x w cx cl Hc Hx Hw Ecx Ecl.
  rewrite vec_at_nat in Ecx, Ecl by lia.
  set (n := Z.to_nat x) in *.
  replace (Z.to_nat (x + w - 1)) with (n + Z.to_nat (w - 1))%nat in Ecl by lia.
  rewrite <- nth_error_skipn in Ecl.
  rewrite <- (Nat.add_0_r n) in Ecx. rewrite <- nth_error_skipn in Ecx.
  pose proof (contiguous_skipn n tracks Hc) as Hc'.
  unfold span_sizes. fold n.
  destruct (skipn n tracks) as [|c0 rest]; [discriminate Ecx|].
  cbn in Ecx. injection Ecx as ->.
  pose proof (@far_edge _ _ _ _ Hc' Ecl) as Hfar.
  replace (S (Z.to_nat (w - 1))) with (Z.to_nat w) in Hfar by lia.
  rewrite sum_wrap. unfold Int.sub, Int.add.
  rewrite wrap_sub_l, <- wrap_sub_l, Hfar, wrap_sub_l. f_equal. ring.
Qed.

Lemma wrap_index : forall (x w : Z) (n : nat),
  0 <= x -> 1 <= w -> x + w <= Z.of_nat n -> Z.of_nat n <= Int.max_int ->
  Int.sub (Int.add x w) 1 = x + w - 1.
Proof.
  intros x w n Hx Hw Hn Hmax. unfold Int.sub, Int.add.
  rewrite wrap_sub_l. apply wrap_in_range.
  unfold Int.in_range, Int.min_int, Int.max_int in *. lia.
Qed.

(** Tracks that differ in their flex weights only are read alike. *)
Lemma vec_at_same_geometry : forall tracks tracks' (i : Z),
  Forall2 same_geometry tracks tracks' ->
  match vec_at tracks i, vec_at tracks' i with
  | Some t, Some t' => same_geometry t t'
  | None, None => True
  | _, _ => False
  end.
Proof.
  intros tracks tracks' i H. unfold vec_at.
  destruct (i <? 0); [exact I|].
  generalize (Z.to_nat i) as n.
  induction H as [|t t' tracks tracks' Ht H IH]; intros [|n]; cbn;
    try exact I; [exact Ht | apply IH].
Qed.

Lemma get_tracks_region_same_geometry : forall (g g' : UIGrid) (x y w h : Z),
  Forall2 same_geometry (m_col_info g) (m_col_info g') ->
  Forall2 same_geometry (m_row_info g) (m_row_info g') ->
  get_tracks_region g' x y w h = get_tracks_region g x y w h.
Proof.
  intros g g' x y w h Hcol Hrow. unfold get_tracks_region.
  pose proof (vec_at_same_geometry x Hcol) as C1.
  pose proof (vec_at_same_geometry y Hrow) as R1.
  pose proof (vec_at_same_geometry (Int.sub (Int.add x w) 1) Hcol) as C2.
  pose proof (vec_at_same_geometry (Int.sub (Int.add y h) 1) Hrow) as R2.
  unfold same_geometry in *.
  repeat match goal with
         | H : context [vec_at ?v ?i] |- _ => destruct (vec_at v i)
         end;
    try contradiction; try reflexivity.
  destruct C1 as [? ?], R1 as [? ?], C2 as [? ?], R2 as [? ?].
  congruence.
Qed.

(** C3.  On a grid whose column and row tracks are contiguous, the
    region of a child at column [x] spanning [w] columns and at row [y]
    spanning [h] rows starts at the offsets of column [x] and row [y],
    and its width and height are the sums of the sizes of the spanned
    columns and rows: the mathematical sums whenever these fit an
    [int].  The flex weights of the tracks play no part: a grid whose
    tracks differ in their weights only gives the same region. *)
Theorem get_tracks_region_spans :
  forall (g : UIGrid) (x y w h : Z),
    contiguous (m_col_info g) ->
    contiguous (m_row_info g) ->
    0 <= x -> 1 <= w -> x + w <= Z.of_nat (length (m_col_info g)) ->
    0 <= y -> 1 <= h -> y + h <= Z.of_nat (length (m_row_info g)) ->
    Z.of_nat (length (m_col_info g)) <= Int.max_int ->
    Z.of_nat (length (m_row_info g)) <= Int.max_int ->
    let widths := span_sizes (m_col_info g) x w in
    let heights := span_sizes (m_row_info g) y h in
    (exists cx ry,
        vec_at (m_col_info g) x = Some cx /\
        vec_at (m_row_info g) y = Some ry /\
        get_tracks_region g x y w h =
        Some (I4 (offset cx) (offset ry) (Int.sum widths) (Int.sum heights))) /\
    (Int.in_range (Zsum widths) -> Int.sum widths = Zsum widths) /\
    (Int.in_range (Zsum heights) -> Int.sum heights = Zsum heights) /\
    (forall g' : UIGrid,
        Forall2 same_geometry (m_col_info g) (m_col_info g') ->
        Forall2 same_geometry (m_row_info g) (m_row_info g') ->
        get_tracks_region g' x y w h = get_tracks_region g x y w h).
Proof.
  intros g x y w h Hcc Hcr Hx Hw Hxw Hy Hh Hyh Hmc Hmr widths heights.
  split; [|split; [|split]].
  - destruct (@vec_at_Some _ (m_col_info g) x) as [cx Ecx]; [lia|].
    destruct (@vec_at_Some _ (m_row_info g) y) as [ry Ery]; [lia|].
    destruct (@vec_at_Some _ (m_col_info g) (x + w - 1)) as [cl Ecl]; [lia|].
    destruct (@vec_at_Some _ (m_row_info g) (y + h - 1)) as [rl Erl]; [lia|].
    exists cx, ry. split; [exact Ecx|]. split; [exact Ery|].
    unfold get_tracks_region.
    rewrite (@wrap_index _ _ _ Hx Hw Hxw Hmc), (@wrap_index _ _ _ Hy Hh Hyh Hmr).
    rewrite Ecx, Ery, Ecl, Erl.
    rewrite (@span_extent _ _ _ _ _ Hcc Hx Hw Ecx Ecl).
    rewrite (@span_extent _ _ _ _ _ Hcr Hy Hh Ery Erl).
    reflexivity.
  - intros Hr. rewrite sum_wrap. apply wrap_in_range, Hr.
  - intros Hr. rewrite sum_wrap. apply wrap_in_range, Hr.
  - intros g'. apply get_tracks_region_same_geometry.
Qed.

End GridFacts.

(** The sample grid: the child at column 1 spanning two columns and at
    row 0 spanning one row gets the region (10, 0, 50, 7). *)
Lemma get_tracks_region_spans_sample :
  (exists cx ry,
      vec_at (Grid.m_col_info sample_grid) 1 = Some cx /\
      vec_at (Grid.m_row_info sample_grid) 0 = Some ry /\
      Grid.get_tracks_region sample_grid 1 0 2 1 =
      Some (I4 (Grid.offset cx) (Grid.offset ry)
               (Int.sum (Grid.span_sizes (Grid.m_col_info sample_grid) 1 2))
               (Int.sum (Grid.span_sizes (Grid.m_row_info sample_grid) 0 1)))) /\
  Grid.get_tracks_region sample_grid 1 0 2 1 = Some (I4 10 0 50 7).
Proof.
  split; [|reflexivity].
  refine (proj1 (@get_tracks_region_spans sample_grid 1 0 2 1 _ _ _ _ _ _ _ _ _ _));
    first [ lia
          | (cbn; repeat split; reflexivity)
          | (unfold Int.max_int; cbn; lia) ].
Defined.

(** ** Track flex weights *)

Section TrackFlexGrowFacts.

Import Grid.

Variable init_track_info : UIGrid -> UIGrid.

(** X14.  The assertion of [track_flex_grow] fails exactly when neither
    selector is -1. *)
Lemma track_flex_grow_asserts : forall (g : UIGrid) (x y : Z),
  fst (track_flex_grow init_track_info g x y) = AssertFailed <->
  x <> -1 /\ y <> -1.
Proof.
  intros g x y. unfold track_flex_grow.
  destruct (Z.eqb_spec x (-1)) as [Hx|Hx], (Z.eqb_spec y (-1)) as [Hy|Hy];
    cbn [orb];
    repeat match goal with
           | |- context [if ?c then _ else _] => destruct c
           | |- context [match ?o with Some _ => _ | None => _ end] =>
               destruct o
           end;
    cbn [fst]; split; intros H;
    try discriminate H; try (destruct H; contradiction);
    try reflexivity; try (split; assumption).
Qed.

(** With exactly one selector -1 and the other a track of the grid, the
    call returns the flex weight of that column ([x >= 0]) or of that
    row. *)
Lemma track_flex_grow_selects : forall (g : UIGrid) (i : Z),
  let g' := init_track_info g in
  (0 <= i < Z.of_nat (length (m_col_info g')) ->
   track_flex_grow init_track_info g i (-1) = (Returned (ColFlexGrow i), g') /\
   deref g' (ColFlexGrow i) = option_map flex_grow (vec_at (m_col_info g') i) /\
   deref g' (ColFlexGrow i) <> None) /\
  (0 <= i < Z.of_nat (length (m_row_info g')) ->
   track_flex_grow init_track_info g (-1) i = (Returned (RowFlexGrow i), g') /\
   deref g' (RowFlexGrow i) = option_map flex_grow (vec_at (m_row_info g') i) /\
   deref g' (RowFlexGrow i) <> None).
Proof.
  intros g i g'. split; intros Hi.
  - destruct (@vec_at_Some _ (m_col_info g') i Hi) as [t Et].
    unfold track_flex_grow. fold g'. rewrite Et.
    replace (i =? -1) with false by (symmetry; apply Z.eqb_neq; lia).
    replace (i >=? 0) with true by (symmetry; apply Z.geb_le; lia).
    cbn. rewrite Et. repeat split. discriminate.
  - destruct (@vec_at_Some _ (m_row_info g') i Hi) as [t Et].
    unfold track_flex_grow. fold g'. rewrite Et.
    cbn. rewrite Et. repeat split. discriminate.
Qed.

(** C1, the code at (-1, -1).  With both selectors -1 the assertion
    [x == -1 || y == -1] holds, [x >= 0] is false, and the call indexes
    row track -1, outside [m_row_info] whatever the grid holds: the
    call is no assertion failure. *)
Theorem track_flex_grow_both_unset : forall g : UIGrid,
  fst (track_flex_grow init_track_info g (-1) (-1)) = OutOfRange /\
  fst (track_flex_grow init_track_info g (-1) (-1)) <> AssertFailed.
Proof.
  intros g. unfold track_flex_grow. cbn. split; [reflexivity | discriminate].
Qed.

End TrackFlexGrowFacts.

(* ================================================================== *)
(** * Further properties of the header *)
(* ================================================================== *)

(** ** Geometry primitives *)

(** X1.  [i4::operator==] holds exactly when the two values are the
    same, which is exactly when [operator[]] gives the same result at
    every index; [operator!=] holds exactly when they differ. *)
Theorem i4_eqb_spec : forall a b : i4,
  (i4_eqb a b = true <-> a = b) /\
  (i4_eqb a b = true <-> forall index, i4_get a index = i4_get b index) /\
  (i4_neb a b = true <-> a <> b).
Proof.
  intros [a0 a1 a2 a3] [b0 b1 b2 b3].
  assert (E : i4_eqb (I4 a0 a1 a2 a3) (I4 b0 b1 b2 b3) = true <->
              I4 a0 a1 a2 a3 = I4 b0 b1 b2 b3).
  { unfold i4_eqb; cbn [i4_0 i4_1 i4_2 i4_3].
    rewrite !andb_true_iff, !Z.eqb_eq. split.
    - intros [[[-> ->] ->] ->]. reflexivity.
    - intros H. injection H as -> -> -> ->. repeat split. }
  split; [exact E|]. split.
  - rewrite E. split.
    + intros ->. reflexivity.
    + intros H.
      pose proof (H 0) as H0. pose proof (H 1) as H1.
      pose proof (H 2) as H2. pose proof (H 3) as H3.
      cbv in H0, H1, H2, H3. congruence.
  - unfold i4_neb. rewrite negb_true_iff, <- not_true_iff_false, E.
    reflexivity.
Qed.

(** X2.  [i2::operator==] holds exactly when the two values are the
    same, which is exactly when [operator[]] gives the same result at
    every index; [operator!=] holds exactly when they differ. *)
Theorem i2_eqb_spec : forall a b : i2,
  (i2_eqb a b = true <-> a = b) /\
  (i2_eqb a b = true <-> forall index, i2_get a index = i2_get b index) /\
  (i2_neb a b = true <-> a <> b).
Proof.
  intros [a0 a1] [b0 b1].
  assert (E : i2_eqb (I2 a0 a1) (I2 b0 b1) = true <-> I2 a0 a1 = I2 b0 b1).
  { unfold i2_eqb; cbn [i2_0 i2_1].
    rewrite !andb_true_iff, !Z.eqb_eq. split.
    - intros [-> ->]. reflexivity.
    - intros H. injection H as -> ->. repeat split. }
  split; [exact E|]. split.
  - rewrite E. split.
    + intros ->. reflexivity.
    + intros H. pose proof (H 0) as H0. pose proof (H 1) as H1.
      cbv in H0, H1. congruence.
  - unfold i2_neb. rewrite negb_true_iff, <- not_true_iff_false, E.
    reflexivity.
Qed.

Lemma vec_at_defined : forall (A : Type) (v : list A) (i : Z),
  (exists a, vec_at v i = Some a) <-> 0 <= i < Z.of_nat (length v).
Proof.
  intros A v i. split.
  - intros [a E]. unfold vec_at in E.
    destruct (Z.ltb_spec i 0); [discriminate E|].
    assert (Z.to_nat i < length v)%nat by (apply nth_error_Some; congruence).
    lia.
  - apply vec_at_Some.
Qed.

(** X3.  [operator[]] of an [i4] is inside the array exactly for the
    indices 0 to 3, and of an [i2] exactly for 0 and 1; every other
    index, the negative ones included, is outside. *)
Theorem geometry_index_bounds :
  (forall (v : i4) (index : Z),
      (exists z, i4_get v index = Some z) <-> 0 <= index <= 3) /\
  (forall (v : i2) (index : Z),
      (exists z, i2_get v index = Some z) <-> 0 <= index <= 1).
Proof.
  split; intros v index.
  - unfold i4_get. rewrite vec_at_defined. cbn. lia.
  - unfold i2_get. rewrite vec_at_defined. cbn. lia.
Qed.

(** ** Margins *)

(** X4.  The two margin setters commute, and after both have been
    called, in either order, the margin is the argument of
    [set_margin_for_sdl] in a build with [USE_TILE_LOCAL] and that of
    [set_margin_for_crt] in a build without; no other member changes. *)
Theorem set_margin_both_backends :
  forall (USE_TILE_LOCAL : build_config) (this : UI) (crt sdl : i4),
    let u := set_margin_for_sdl USE_TILE_LOCAL
               (set_margin_for_crt USE_TILE_LOCAL this crt) sdl in
    set_margin_for_crt USE_TILE_LOCAL
      (set_margin_for_sdl USE_TILE_LOCAL this sdl) crt = u /\
    margin u = (if USE_TILE_LOCAL then sdl else crt) /\
    flex_grow u = flex_grow this /\
    align_self u = align_self this /\
    expand_h u = expand_h this /\
    expand_v u = expand_v this /\
    m_region u = m_region this /\
    cached_sr_valid u = cached_sr_valid this /\
    cached_sr u = cached_sr this /\
    cached_sr_pw u = cached_sr_pw this.
Proof.
  intros [|] this crt sdl; cbn; repeat split.
Qed.

(** ** Registering, removing and emitting *)

Section SlotCompose.

Variables Args World : Type.

Abbreviation Handler := (Slot.HandlerSig Args World).
Abbreviation Registry := (Slot.HandlerMap Args World).

Implicit Types (m : Registry) (q : Slot.Target * Handler).
Implicit Types (t target : Slot.Target) (h : Handler).

Lemma length_insert : forall q m, length (Slot.insert q m) = S (length m).
Proof.
  intros q m. induction m as [|q' m IH]; cbn [Slot.insert].
  - reflexivity.
  - destruct (fst q <? fst q'); cbn [length]; [reflexivity | now rewrite IH].
Qed.

Lemma length_erase : forall t m, (length (Slot.erase t m) <= length m)%nat.
Proof.
  intros t m. induction m as [|q m IH]; cbn [Slot.erase].
  - apply Nat.le_refl.
  - destruct (fst q =? t); cbn [length]; lia.
Qed.

(** X5.  [on] adds one entry and replaces none.  On a registry reached
    by any sequence of calls, the new handler comes last in the range
    [emit] walks for its target, and the range of every other target is
    as before. *)
Theorem on_appends :
  forall (history : list (Slot.call Args World)) t h target,
    let m := Slot.after_calls history in
    length (Slot.on m t h) = S (length m) /\
    Slot.equal_range target (Slot.on m t h) =
    if t =? target
    then Slot.equal_range target m ++ [(t, h)]
    else Slot.equal_range target m.
Proof.
  intros history t h target m. subst m.
  pose proof (ordered_after_calls history) as Hord.
  unfold Slot.on. split; [apply length_insert|].
  rewrite !equal_range_entries
    by (try apply ordered_insert; exact Hord).
  apply entries_of_insert. exact Hord.
Qed.

Lemma emit_range_app : forall (r1 r2 : Registry) (args : Args) (w : World),
  Slot.emit_range (r1 ++ r2) args w =
  let e1 := Slot.emit_range r1 args w in
  if Slot.consumed e1 then e1
  else
    let e2 := Slot.emit_range r2 args (Slot.world e1) in
    Slot.Emitted (Slot.consumed e2) (Slot.world e2)
                 (Slot.invoked e1 ++ Slot.invoked e2).
Proof.
  induction r1 as [|q r1 IH]; intros r2 args w.
  - cbn. destruct (Slot.emit_range r2 args w); reflexivity.
  - cbn [app Slot.emit_range]. cbv zeta.
    destruct (snd q args w) as [r w1].
    destruct r; [reflexivity|].
    rewrite IH. cbv zeta.
    cbn [Slot.consumed Slot.world Slot.invoked].
    destruct (Slot.emit_range r1 args w1) as [c1 w2 tr1].
    cbn [Slot.consumed Slot.world Slot.invoked].
    destruct c1; reflexivity.
Qed.

(** X6.  A handler registered last is offered the event only when every
    earlier handler of the same target has passed it on.  If [emit]
    returned true before the registration, it does exactly the same
    after it and the new handler is not called; otherwise the earlier
    handlers run as before, the new one is called once in the state they
    left, and its return value is the result of [emit]. *)
Theorem emit_after_on :
  forall (history : list (Slot.call Args World)) t h (args : Args) (w : World),
    let m := Slot.after_calls history in
    let e := Slot.emit m t args w in
    Slot.emit (Slot.on m t h) t args w =
    if Slot.consumed e then e
    else
      let (r, w') := h args (Slot.world e) in
      Slot.Emitted r w' (Slot.invoked e ++ [(h, r)]).
Proof.
  intros history t h args w m e. subst e. unfold Slot.emit.
  destruct (on_appends history t h t) as [_ Hrange]. fold m in Hrange.
  rewrite Hrange, Z.eqb_refl, emit_range_app. cbv zeta.
  destruct (Slot.consumed (Slot.emit_range (Slot.equal_range t m) args w));
    [reflexivity|].
  cbn [Slot.emit_range snd].
  destruct (h args (Slot.world (Slot.emit_range (Slot.equal_range t m) args w)))
    as [r w'].
  destruct r; reflexivity.
Qed.

(** X7.  What [emit] does for one target does not depend on the
    handlers of the others: registering a handler against another
    target, or removing all handlers of another target, leaves its
    result, its final state and the handlers it calls unchanged. *)
Theorem emit_other_target :
  forall (history : list (Slot.call Args World)) t target
         (args : Args) (w : World),
    t <> target ->
    let m := Slot.after_calls history in
    (forall h, Slot.emit (Slot.on m t h) target args w =
               Slot.emit m target args w) /\
    Slot.emit (Slot.remove_by_target m t) target args w =
    Slot.emit m target args w.
Proof.
  intros history t target args w Hne m. subst m.
  pose proof (ordered_after_calls history) as Hord.
  unfold Slot.emit. split.
  - intros h. destruct (on_appends history t h target) as [_ Hrange].
    rewrite Hrange.
    destruct (Z.eqb_spec t target); [contradiction | reflexivity].
  - unfold Slot.remove_by_target.
    rewrite !equal_range_entries by (try apply ordered_erase; exact Hord).
    rewrite entries_of_erase.
    destruct (Z.eqb_spec t target); [contradiction | reflexivity].
Qed.

(** X8.  After [remove_by_target], and on the empty registry, [emit] for
    that target calls no handler, leaves the state as it is and returns
    false. *)
Theorem emit_without_handlers :
  forall (history : list (Slot.call Args World)) t (args : Args) (w : World),
    Slot.emit (Slot.remove_by_target (Slot.after_calls history) t) t args w =
    Slot.Emitted false w [] /\
    Slot.emit (Slot.empty Args World) t args w = Slot.Emitted false w [].
Proof.
  intros history t args w. split; [|reflexivity].
  unfold Slot.emit, Slot.remove_by_target.
  rewrite equal_range_entries
    by (apply ordered_erase, ordered_after_calls).
  rewrite entries_of_erase, Z.eqb_refl. reflexivity.
Qed.

Lemma erase_insert : forall t h m,
  Slot.erase t (Slot.insert (t, h) m) = Slot.erase t m.
Proof.
  intros t h m. induction m as [|q m IH]; cbn [Slot.insert Slot.erase fst].
  - now rewrite Z.eqb_refl.
  - destruct (t <? fst q); cbn [Slot.erase fst].
    + now rewrite Z.eqb_refl.
    + rewrite IH. reflexivity.
Qed.

Lemma erase_erase : forall t m, Slot.erase t (Slot.erase t m) = Slot.erase t m.
Proof.
  intros t m. induction m as [|q m IH]; cbn [Slot.erase].
  - reflexivity.
  - destruct (fst q =? t) eqn:E; [exact IH|].
    cbn [Slot.erase]. rewrite E, IH. reflexivity.
Qed.

(** X9.  [remove_by_target] leaves a registry as it is exactly when the
    registry holds no handler of the target; a second removal of the
    same target changes nothing. *)
Theorem remove_by_target_missing : forall m t,
  (Slot.remove_by_target m t = m <-> forall h, ~ In (t, h) m) /\
  Slot.remove_by_target (Slot.remove_by_target m t) t =
  Slot.remove_by_target m t.
Proof.
  intros m t. unfold Slot.remove_by_target. split; [|apply erase_erase].
  induction m as [|q m IH]; cbn [Slot.erase].
  - split; [intros _ h [] | reflexivity].
  - destruct (Z.eqb_spec (fst q) t) as [E|E].
    + split.
      * intros H. pose proof (length_erase t m) as L.
        rewrite H in L. cbn [length] in L. lia.
      * intros H. exfalso. apply (H (snd q)). left.
        destruct q as [k h]; cbn in *. now subst k.
    + split.
      * intros H. injection H as H. intros h [Hq | Hin].
        -- subst q. apply E. reflexivity.
        -- exact (proj1 IH H h Hin).
      * intros H. f_equal. apply (proj2 IH). intros h Hin. apply (H h). now right.
Qed.

End SlotCompose.

Section UISlotsCompose.

Variables wm_event World : Type.

(** X10.  Destroying a widget undoes its registrations: a registry in
    which the widget registered one more handler before being destroyed
    ends up the same as one in which it did not, and destroying the
    widget twice is the same as destroying it once. *)
Theorem delete_UI_after_on :
  forall (this : Z) (s : slots wm_event World)
         (cb : Slot.HandlerSig wm_event World),
    delete_UI this (UI_on this s cb) = delete_UI this s /\
    delete_UI this (delete_UI this s) = delete_UI this s.
Proof.
  intros this s cb. unfold delete_UI, UI_on, Slot.remove_by_target, Slot.on.
  cbn [event]. rewrite erase_insert, erase_erase. split; reflexivity.
Qed.

End UISlotsCompose.

(** Two handlers on a counter: the first passes the event on, the second
    consumes it. *)
Lemma emit_other_target_sample :
  5 <> 7 /\
  Slot.emit
    (Slot.remove_by_target
       (Slot.after_calls
          [Slot.On 7 (fun (_ : unit) (n : nat) => (false, S n));
           Slot.On 5 (fun (_ : unit) (n : nat) => (true, n))]) 5)
    7 tt O =
  Slot.emit
    (Slot.after_calls
       [Slot.On 7 (fun (_ : unit) (n : nat) => (false, S n));
        Slot.On 5 (fun (_ : unit) (n : nat) => (true, n))])
    7 tt O.
Proof.
  split; [discriminate|].
  refine (proj2 (@emit_other_target unit nat
                   [Slot.On 7 (fun (_ : unit) (n : nat) => (false, S n));
                    Slot.On 5 (fun (_ : unit) (n : nat) => (true, n))]
                   5 7 tt O _)).
  discriminate.
Defined.

(** ** Regions of grid tracks *)

Section GridRegions.

Import Grid.

(** Equations between wrapped sums, decided as linear arithmetic on the
    quotients and remainders. *)
Ltac wrap_lia :=
  unfold Int.add, Int.sub, Int.wrap in *;
  change (2 ^ 32) with 4294967296 in *;
  change (2 ^ 31) with 2147483648 in *;
  Z.div_mod_to_equations; lia.

Lemma span_index : forall x w : Z,
  0 <= x -> 0 <= w -> x + w <= Int.max_int ->
  Int.sub (Int.add x w) 1 = x + w - 1.
Proof.
  intros x w Hx Hw Hmax. unfold Int.max_int in Hmax.
  change (2 ^ 31) with 2147483648 in Hmax. wrap_lia.
Qed.

Lemma get_tracks_region_inv : forall (g : UIGrid) (x y w h : Z) (r : i4),
  get_tracks_region g x y w h = Some r <->
  exists cx ry cl rl,
    vec_at (m_col_info g) x = Some cx /\
    vec_at (m_row_info g) y = Some ry /\
    vec_at (m_col_info g) (Int.sub (Int.add x w) 1) = Some cl /\
    vec_at (m_row_info g) (Int.sub (Int.add y h) 1) = Some rl /\
    r = I4 (offset cx) (offset ry)
           (Int.sub (Int.add (size cl) (offset cl)) (offset cx))
           (Int.sub (Int.add (size rl) (offset rl)) (offset ry)).
Proof.
  intros g x y w h r. unfold get_tracks_region. split.
  - destruct (vec_at (m_col_info g) x) as [cx|]; [|discriminate].
    destruct (vec_at (m_row_info g) y) as [ry|]; [|discriminate].
    destruct (vec_at (m_col_info g) (Int.sub (Int.add x w) 1)) as [cl|];
      [|discriminate].
    destruct (vec_at (m_row_info g) (Int.sub (Int.add y h) 1)) as [rl|];
      [|discriminate].
    intros H. injection H as <-. exists cx, ry, cl, rl. repeat split.
  - intros (cx & ry & cl & rl & -> & -> & -> & -> & ->). reflexivity.
Qed.

(** X11.  [get_tracks_region] stays inside its vectors exactly when the
    first and the last spanned column are columns of the grid and the
    first and the last spanned row are rows of it; with every other
    argument, a negative position or an empty grid included, one of its
    four accesses is outside. *)
Theorem get_tracks_region_defined : forall (g : UIGrid) (x y w h : Z),
  (exists r, get_tracks_region g x y w h = Some r) <->
  0 <= x < Z.of_nat (length (m_col_info g)) /\
  0 <= y < Z.of_nat (length (m_row_info g)) /\
  0 <= Int.sub (Int.add x w) 1 < Z.of_nat (length (m_col_info g)) /\
  0 <= Int.sub (Int.add y h) 1 < Z.of_nat (length (m_row_info g)).
Proof.
  intros g x y w h. rewrite <- !vec_at_defined. split.
  - intros [r Hr]. apply get_tracks_region_inv in Hr.
    destruct Hr as (cx & ry & cl & rl & Hcx & Hry & Hcl & Hrl & _).
    repeat split; eexists; eassumption.
  - intros ([cx Hcx] & [ry Hry] & [cl Hcl] & [rl Hrl]).
    eexists. apply get_tracks_region_inv.
    exists cx, ry, cl, rl. repeat split; assumption.
Qed.

Lemma contiguous_adjacent : forall (k : nat) tracks (a b : track_info),
  contiguous tracks ->
  nth_error tracks k = Some a ->
  nth_error tracks (S k) = Some b ->
  offset b = Int.add (offset a) (size a).
Proof.
  induction k as [|k IH]; intros tracks a b Hc Ha Hb.
  - destruct tracks as [|t [|t' tracks]]; try discriminate.
    cbn in Ha, Hb. injection Ha as <-. injection Hb as <-. exact (proj1 Hc).
  - destruct tracks as [|t tracks]; [discriminate|].
    change (nth_error tracks k = Some a) in Ha.
    change (nth_error tracks (S k) = Some b) in Hb.
    exact (IH tracks a b (@contiguous_tail _ _ Hc) Ha Hb).
Qed.

Lemma vec_at_adjacent : forall tracks (i : Z) (a b : track_info),
  contiguous tracks ->
  0 <= i ->
  vec_at tracks i = Some a ->
  vec_at tracks (i + 1) = Some b ->
  offset b = Int.add (offset a) (size a).
Proof.
  intros tracks i a b Hc Hi Ha Hb.
  rewrite vec_at_nat in Ha, Hb by lia.
  replace (Z.to_nat (i + 1)) with (S (Z.to_nat i)) in Hb by lia.
  exact (@contiguous_adjacent _ _ _ _ Hc Ha Hb).
Qed.

(** Along one axis: the span after a span starts where the first ends,
    and the extent of the two together is the sum of their extents. *)
Lemma axis_tile : forall cx cl cn cl2 : track_info,
  offset cn = Int.add (offset cl) (size cl) ->
  offset cn =
  Int.add (offset cx) (Int.sub (Int.add (size cl) (offset cl)) (offset cx)) /\
  Int.sub (Int.add (size cl2) (offset cl2)) (offset cx) =
  Int.add (Int.sub (Int.add (size cl) (offset cl)) (offset cx))
          (Int.sub (Int.add (size cl2) (offset cl2)) (offset cn)).
Proof.
  intros cx cl cn cl2 Hn. rewrite Hn.
  generalize (offset cx) (offset cl) (size cl) (offset cl2) (size cl2).
  intros ox ol sl ol2 sl2. split; wrap_lia.
Qed.

(** X12.  On contiguous tracks, regions of adjacent spans tile.  A span
    of [w'] columns that follows a span of [w] columns in the same rows
    starts where the first one ends, and the region of the [w + w']
    columns together starts with the first and is as wide as the two
    widths added; all three have the same vertical extent.  The same
    holds for a span of rows below another in the same columns. *)
Theorem adjacent_spans_tile :
  forall (g : UIGrid) (x y w h n : Z) (r1 r2 : i4),
    (contiguous (m_col_info g) ->
     0 <= x -> 1 <= w -> 1 <= n -> x + w + n <= Int.max_int ->
     get_tracks_region g x y w h = Some r1 ->
     get_tracks_region g (x + w) y n h = Some r2 ->
     exists r12,
       get_tracks_region g x y (w + n) h = Some r12 /\
       i4_0 r2 = Int.add (i4_0 r1) (i4_2 r1) /\
       i4_0 r12 = i4_0 r1 /\
       i4_2 r12 = Int.add (i4_2 r1) (i4_2 r2) /\
       i4_1 r2 = i4_1 r1 /\ i4_3 r2 = i4_3 r1 /\
       i4_1 r12 = i4_1 r1 /\ i4_3 r12 = i4_3 r1) /\
    (contiguous (m_row_info g) ->
     0 <= y -> 1 <= h -> 1 <= n -> y + h + n <= Int.max_int ->
     get_tracks_region g x y w h = Some r1 ->
     get_tracks_region g x (y + h) w n = Some r2 ->
     exists r12,
       get_tracks_region g x y w (h + n) = Some r12 /\
       i4_1 r2 = Int.add (i4_1 r1) (i4_3 r1) /\
       i4_1 r12 = i4_1 r1 /\
       i4_3 r12 = Int.add (i4_3 r1) (i4_3 r2) /\
       i4_0 r2 = i4_0 r1 /\ i4_2 r2 = i4_2 r1 /\
       i4_0 r12 = i4_0 r1 /\ i4_2 r12 = i4_2 r1).
Proof.
  intros g x y w h n r1 r2. split.
  - intros Hc Hx Hw Hn Hmax H1 H2.
    apply get_tracks_region_inv in H1, H2.
    destruct H1 as (cx & ry & cl & rl & Ecx & Ery & Ecl & Erl & ->).
    destruct H2 as (cn & ry' & cl2 & rl' & Ecn & Ery' & Ecl2 & Erl' & ->).
    rewrite Ery in Ery'. injection Ery' as <-.
    rewrite Erl in Erl'. injection Erl' as <-.
    rewrite span_index in Ecl, Ecl2 by lia.
    assert (Hadj : offset cn = Int.add (offset cl) (size cl)).
    { apply (@vec_at_adjacent (m_col_info g) (x + w - 1)); try assumption;
        [lia|]. replace (x + w - 1 + 1) with (x + w) by ring. exact Ecn. }
    destruct (@axis_tile cx cl cn cl2 Hadj) as [Hstart Hsum].
    eexists. split.
    + apply get_tracks_region_inv. exists cx, ry, cl2, rl.
      rewrite (@span_index x (w + n)) by lia.
      replace (x + (w + n) - 1) with (x + w + n - 1) by ring.
      repeat split; assumption.
    + cbn [i4_0 i4_1 i4_2 i4_3]. repeat split; assumption.
  - intros Hc Hy Hh Hn Hmax H1 H2.
    apply get_tracks_region_inv in H1, H2.
    destruct H1 as (cx & ry & cl & rl & Ecx & Ery & Ecl & Erl & ->).
    destruct H2 as (cx' & rn & cl' & rl2 & Ecx' & Ern & Ecl' & Erl2 & ->).
    rewrite Ecx in Ecx'. injection Ecx' as <-.
    rewrite Ecl in Ecl'. injection Ecl' as <-.
    rewrite span_index in Erl, Erl2 by lia.
    assert (Hadj : offset rn = Int.add (offset rl) (size rl)).
    { apply (@vec_at_adjacent (m_row_info g) (y + h - 1)); try assumption;
        [lia|]. replace (y + h - 1 + 1) with (y + h) by ring. exact Ern. }
    destruct (@axis_tile ry rl rn rl2 Hadj) as [Hstart Hsum].
    eexists. split.
    + apply get_tracks_region_inv. exists cx, ry, cl, rl2.
      rewrite (@span_index y (h + n)) by lia.
      replace (y + (h + n) - 1) with (y + h + n - 1) by ring.
      repeat split; assumption.
    + cbn [i4_0 i4_1 i4_2 i4_3]. repeat split; assumption.
Qed.

(** X13.  On contiguous tracks an empty span has no extent: the region
    of a child spanning zero columns at a column other than the first
    has width 0, and that of a child spanning zero rows at a row other
    than the first has height 0. *)
Theorem empty_span_region :
  forall (g : UIGrid) (x y w h : Z) (r : i4),
    (contiguous (m_col_info g) ->
     1 <= x <= Int.max_int ->
     get_tracks_region g x y 0 h = Some r -> i4_2 r = 0) /\
    (contiguous (m_row_info g) ->
     1 <= y <= Int.max_int ->
     get_tracks_region g x y w 0 = Some r -> i4_3 r = 0).
Proof.
  intros g x y w h r. split.
  - intros Hc Hx H. apply get_tracks_region_inv in H.
    destruct H as (cx & ry & cl & rl & Ecx & _ & Ecl & _ & ->).
    rewrite span_index in Ecl by lia.
    assert (Hadj : offset cx = Int.add (offset cl) (size cl)).
    { apply (@vec_at_adjacent (m_col_info g) (x + 0 - 1)); try assumption;
        [lia|]. replace (x + 0 - 1 + 1) with x by ring. exact Ecx. }
    cbn [i4_2]. rewrite Hadj.
    generalize (offset cl) (size cl). intros o s. wrap_lia.
  - intros Hc Hy H. apply get_tracks_region_inv in H.
    destruct H as (cx & ry & cl & rl & _ & Ery & _ & Erl & ->).
    rewrite span_index in Erl by lia.
    assert (Hadj : offset ry = Int.add (offset rl) (size rl)).
    { apply (@vec_at_adjacent (m_row_info g) (y + 0 - 1)); try assumption;
        [lia|]. replace (y + 0 - 1 + 1) with y by ring. exact Ery. }
    cbn [i4_3]. rewrite Hadj.
    generalize (offset rl) (size rl). intros o s. wrap_lia.
Qed.

(** X18.  The region of a child in a single cell is that cell: it starts
    at the offsets of its column and its row and has their sizes,
    whatever the other tracks hold, as long as the two sizes are values
    of an [int]. *)
Theorem single_cell_region :
  forall (g : UIGrid) (x y : Z) (cx ry : track_info),
    0 <= x < Int.max_int ->
    0 <= y < Int.max_int ->
    vec_at (m_col_info g) x = Some cx ->
    vec_at (m_row_info g) y = Some ry ->
    Int.in_range (size cx) ->
    Int.in_range (size ry) ->
    get_tracks_region g x y 1 1 =
    Some (I4 (offset cx) (offset ry) (size cx) (size ry)).
Proof.
  intros g x y cx ry Hx Hy Ecx Ery Hsx Hsy.
  apply get_tracks_region_inv. exists cx, ry, cx, ry.
  rewrite !span_index by lia.
  replace (x + 1 - 1) with x by ring. replace (y + 1 - 1) with y by ring.
  repeat split; try assumption.
  unfold Int.in_range, Int.min_int, Int.max_int in Hsx, Hsy.
  change (2 ^ 31) with 2147483648 in Hsx, Hsy.
  f_equal.
  - generalize dependent (size cx). generalize (offset cx).
    intros o s Hs. wrap_lia.
  - generalize dependent (size ry). generalize (offset ry).
    intros o s Hs. wrap_lia.
Qed.

End GridRegions.

(** The sample grid: column 0 alone, then columns 1 and 2, tile the three
    columns; an empty span at column 1 has width 0. *)
Lemma adjacent_spans_tile_sample :
  exists r12,
    Grid.get_tracks_region sample_grid 0 0 (1 + 2) 1 = Some r12 /\
    i4_0 (I4 10 0 50 7) = Int.add (i4_0 (I4 0 0 10 7)) (i4_2 (I4 0 0 10 7)) /\
    i4_0 r12 = i4_0 (I4 0 0 10 7) /\
    i4_2 r12 = Int.add (i4_2 (I4 0 0 10 7)) (i4_2 (I4 10 0 50 7)) /\
    i4_1 (I4 10 0 50 7) = i4_1 (I4 0 0 10 7) /\
    i4_3 (I4 10 0 50 7) = i4_3 (I4 0 0 10 7) /\
    i4_1 r12 = i4_1 (I4 0 0 10 7) /\ i4_3 r12 = i4_3 (I4 0 0 10 7).
Proof.
  refine (proj1 (@adjacent_spans_tile sample_grid 0 0 1 1 2
                   (I4 0 0 10 7) (I4 10 0 50 7)) _ _ _ _ _ _ _);
    first [ reflexivity
          | lia
          | (cbn; repeat split; reflexivity)
          | (unfold Int.max_int; cbn; lia) ].
Defined.

Lemma empty_span_region_sample : i4_2 (I4 10 0 0 7) = 0.
Proof.
  refine (proj1 (@empty_span_region sample_grid 1 0 0 1 (I4 10 0 0 7)) _ _ _);
    first [ reflexivity
          | (cbn; repeat split; reflexivity)
          | (unfold Int.max_int; cbn; lia) ].
Defined.

(** ** What [track_flex_grow] returns *)

Section TrackFlexGrowReturns.

Import Grid.

Variable init_track_info : UIGrid -> UIGrid.

(** X15.  [track_flex_grow] returns exactly in two cases: with [y] -1
    and [x] a column of the grid as [init_track_info] left it, when the
    reference is to that column's weight, and with [x] -1 and [y] a row
    of that grid, when it is to that row's weight.  A reference it
    returns can be read, and the grid it leaves is the one
    [init_track_info] made. *)
Theorem track_flex_grow_returns :
  forall (g : UIGrid) (x y : Z) (r : flex_grow_ref),
    let g' := init_track_info g in
    (fst (track_flex_grow init_track_info g x y) = Returned r <->
     (y = -1 /\ 0 <= x < Z.of_nat (length (m_col_info g')) /\
      r = ColFlexGrow x) \/
     (x = -1 /\ 0 <= y < Z.of_nat (length (m_row_info g')) /\
      r = RowFlexGrow y)) /\
    (fst (track_flex_grow init_track_info g x y) = Returned r ->
     exists weight, deref g' r = Some weight) /\
    snd (track_flex_grow init_track_info g x y) = g'.
Proof.
  intros g x y r g'.
  assert (Hsnd : snd (track_flex_grow init_track_info g x y) = g').
  { unfold track_flex_grow. fold g'.
    repeat match goal with
           | |- context [if ?c then _ else _] => destruct c
           | |- context [match ?o with Some _ => _ | None => _ end] =>
               destruct o
           end; reflexivity. }
  assert (Hiff : fst (track_flex_grow init_track_info g x y) = Returned r <->
                 (y = -1 /\ 0 <= x < Z.of_nat (length (m_col_info g')) /\
                  r = ColFlexGrow x) \/
                 (x = -1 /\ 0 <= y < Z.of_nat (length (m_row_info g')) /\
                  r = RowFlexGrow y)).
  { pose proof (proj1 (vec_at_defined (m_col_info g') x)) as Bc.
    pose proof (proj2 (vec_at_defined (m_col_info g') x)) as Nc.
    pose proof (proj1 (vec_at_defined (m_row_info g') y)) as Br.
    pose proof (proj2 (vec_at_defined (m_row_info g') y)) as Nr.
    unfold track_flex_grow. fold g'.
    destruct (vec_at (m_col_info g') x) as [tc|];
      destruct (vec_at (m_row_info g') y) as [tr|];
      try (assert (0 <= x < Z.of_nat (length (m_col_info g')))
            by (apply Bc; eexists; reflexivity));
      try (assert (0 <= y < Z.of_nat (length (m_row_info g')))
            by (apply Br; eexists; reflexivity));
      try (assert (~ 0 <= x < Z.of_nat (length (m_col_info g')))
            by (intros B; destruct (Nc B); discriminate));
      try (assert (~ 0 <= y < Z.of_nat (length (m_row_info g')))
            by (intros B; destruct (Nr B); discriminate));
      clear Bc Nc Br Nr;
      destruct (Z.eqb_spec x (-1)), (Z.eqb_spec y (-1)); cbn [orb];
      destruct (Z.geb_spec x 0); cbn [fst];
      (split;
       [ intros E; try discriminate E; injection E as <-;
         first [ left; repeat split; (reflexivity || lia)
               | right; repeat split; (reflexivity || lia) ]
       | intros [(? & ? & ->) | (? & ? & ->)]; first [ reflexivity | lia ] ]). }
  split; [exact Hiff|]. split; [|exact Hsnd].
  intros H. apply Hiff in H.
  destruct H as [(_ & Hb & ->) | (_ & Hb & ->)];
    apply vec_at_defined in Hb; destruct Hb as [t Et];
    exists (flex_grow t); cbn [deref]; rewrite Et; reflexivity.
Qed.

End TrackFlexGrowReturns.

(** ** Iterating over the children of a container *)

Section Iterators.

Import Iter.

Lemma vector_eqb_refl : forall (A : Type) (eqb : A -> A -> bool) (l : list A),
  (forall a, eqb a a = true) -> vector_eqb eqb l l = true.
Proof.
  intros A eqb l Hrefl. induction l as [|a l IH]; cbn.
  - reflexivity.
  - now rewrite Hrefl, IH.
Qed.

Lemma skipn_nth_error : forall (A : Type) (l : list A) (p : nat) (a : A),
  nth_error l p = Some a -> skipn p l = a :: skipn (S p) l.
Proof.
  intros A l. induction l as [|b l IH]; intros [|p] a H; try discriminate.
  - cbn in H. injection H as <-. reflexivity.
  - cbn [nth_error] in H. cbn [skipn]. rewrite (IH p a H). reflexivity.
Qed.

Lemma advance_vec : forall (k p : nat) (cs : list shared_ptr_UI),
  (p <= length cs)%nat ->
  advance k (Iterator (IterVec cs p)) =
  if (p + k <=? length cs)%nat
  then Some (Iterator (IterVec cs (p + k)))
  else None.
Proof.
  induction k as [|k IH]; intros p cs Hp.
  - cbn [advance]. rewrite Nat.add_0_r.
    destruct (Nat.leb_spec p (length cs)); [reflexivity | lia].
  - cbn [advance]. unfold iterator_incr. cbn [it incr iter_impl_vec_ops vec_it vec_c].
    destruct (Nat.ltb_spec p (length cs)) as [Hlt|Hge]; cbn [option_map].
    + rewrite IH by lia. replace (S p + k)%nat with (p + S k)%nat by lia.
      reflexivity.
    + destruct (Nat.leb_spec (p + S k) (length cs)); [lia | reflexivity].
Qed.

(** X16.  Advancing [begin()] of a vector-backed container [k] times is
    defined exactly for [k] up to the number of children.  The iterator
    reached equals [end()] exactly when [k] is that number, and before
    that it designates the [k]-th child; at [end()] it designates
    nothing and cannot advance. *)
Theorem vec_iterator_advance : forall (this : UIContainerVec) (k : nat),
  let n := length (m_children this) in
  match advance k (vec_begin this) with
  | Some i =>
      (k <= n)%nat /\
      iterator_eqb i (vec_end this) = (k =? n)%nat /\
      iterator_neb i (vec_end this) = negb (k =? n)%nat /\
      iterator_deref i = nth_error (m_children this) k /\
      (iterator_incr i = None <-> k = n)
  | None => (n < k)%nat
  end.
Proof.
  intros this k n. unfold vec_begin.
  rewrite advance_vec by lia. cbn [Nat.add].
  destruct (Nat.leb_spec k (length (m_children this))) as [Hle|Hgt];
    [|exact Hgt].
  split; [exact Hle|].
  assert (E : iterator_eqb (Iterator (IterVec (m_children this) k))
                           (vec_end this) = (k =? n)%nat).
  { unfold iterator_eqb, vec_end.
    cbn [it equal iter_impl_vec_ops vec_c vec_it andb].
    rewrite vector_eqb_refl by apply Z.eqb_refl. reflexivity. }
  split; [exact E|]. split; [unfold iterator_neb; now rewrite E|].
  split; [reflexivity|].
  unfold iterator_incr. cbn [it incr iter_impl_vec_ops vec_c vec_it].
  fold n. destruct (Nat.ltb_spec k n) as [Hlt|Hge]; cbn [option_map]; split;
    intros Hk; try discriminate Hk; try reflexivity; lia.
Qed.

Lemma range_for_vec : forall (cs : list shared_ptr_UI) (d p extra : nat),
  (p + d = length cs)%nat ->
  range_for (d + extra) (Iterator (IterVec cs p))
            (Iterator (IterVec cs (length cs))) =
  Some (skipn p cs).
Proof.
  intros cs d. induction d as [|d IH]; intros p extra Hp.
  - assert (p = length cs) by lia. subst p.
    rewrite skipn_all.
    destruct (0 + extra)%nat; cbn [range_for]; unfold iterator_neb, iterator_eqb;
      cbn [it equal iter_impl_vec_ops vec_c vec_it andb];
      rewrite vector_eqb_refl, Nat.eqb_refl by apply Z.eqb_refl;
      reflexivity.
  - cbn [Nat.add range_for]. unfold iterator_neb, iterator_eqb.
    cbn [it equal iter_impl_vec_ops vec_c vec_it andb].
    rewrite vector_eqb_refl by apply Z.eqb_refl.
    replace (p =? length cs)%nat with false
      by (symmetry; apply Nat.eqb_neq; lia).
    cbn [andb negb].
    unfold iterator_deref, iterator_incr.
    cbn [it deref incr iter_impl_vec_ops vec_c vec_it].
    destruct (nth_error cs p) as [child|] eqn:E;
      [|apply nth_error_None in E; lia].
    replace (p <? length cs)%nat with true
      by (symmetry; apply Nat.ltb_lt; lia).
    cbn [option_map]. rewrite IH by lia. cbn [option_map].
    now rewrite (skipn_nth_error _ _ E).
Qed.

Lemma range_for_grid : forall (cs : list Grid.child_info) (d p extra : nat),
  (p + d = length cs)%nat ->
  range_for (d + extra) (Iterator (IterGrid cs p))
            (Iterator (IterGrid cs (length cs))) =
  Some (map Grid.widget (skipn p cs)).
Proof.
  assert (Hrefl : forall a, child_info_eqb a a = true)
    by (intros a; apply Z.eqb_refl).
  intros cs d. induction d as [|d IH]; intros p extra Hp.
  - assert (p = length cs) by lia. subst p.
    rewrite skipn_all.
    destruct (0 + extra)%nat; cbn [range_for]; unfold iterator_neb, iterator_eqb;
      cbn [it equal iter_impl_grid_ops grid_c grid_it andb];
      rewrite vector_eqb_refl, Nat.eqb_refl by exact Hrefl;
      reflexivity.
  - cbn [Nat.add range_for]. unfold iterator_neb, iterator_eqb.
    cbn [it equal iter_impl_grid_ops grid_c grid_it andb].
    rewrite vector_eqb_refl by exact Hrefl.
    replace (p =? length cs)%nat with false
      by (symmetry; apply Nat.eqb_neq; lia).
    cbn [andb negb].
    unfold iterator_deref, iterator_incr.
    cbn [it deref incr iter_impl_grid_ops grid_c grid_it].
    destruct (nth_error cs p) as [child|] eqn:E;
      [|apply nth_error_None in E; lia].
    replace (p <? length cs)%nat with true
      by (symmetry; apply Nat.ltb_lt; lia).
    cbn [option_map]. rewrite IH by lia. cbn [option_map].
    now rewrite (skipn_nth_error _ _ E).
Qed.

(** X17.  The loop [for (it = begin(); it != end(); ++it)] over a
    container ends without leaving the vector after as many steps as
    there are children, and visits every child once, in the order of
    the vector: the children of a vector-backed container, and for a
    grid the widgets of its child entries. *)
Theorem range_for_visits_children :
  (forall (this : UIContainerVec) (extra : nat),
      range_for (length (m_children this) + extra)
                (vec_begin this) (vec_end this) =
      Some (m_children this)) /\
  (forall (this : Grid.UIGrid) (extra : nat),
      range_for (length (Grid.m_child_info this) + extra)
                (grid_begin this) (grid_end this) =
      Some (map Grid.widget (Grid.m_child_info this))).
Proof.
  split; intros this extra.
  - unfold vec_begin, vec_end. rewrite range_for_vec by reflexivity.
    reflexivity.
  - unfold grid_begin, grid_end. rewrite range_for_grid by reflexivity.
    reflexivity.
Qed.

End Iterators.

(** The sample grid: the cell at column 1 and row 1. *)
Lemma single_cell_region_sample :
  Grid.get_tracks_region sample_grid 1 1 1 1 = Some (I4 10 7 20 9).
Proof.
  refine (@single_cell_region sample_grid 1 1
            (Grid.Track 20 10 (SizeReq 0 0) 0)
            (Grid.Track 9 7 (SizeReq 0 0) 2) _ _ _ _ _ _);
    first [ reflexivity
          | (unfold Int.max_int; cbn; lia)
          | (unfold Int.in_range, Int.min_int, Int.max_int; cbn; lia) ].
Defined.
